(** * Dict utilities and the timeout wrapper of the TypeScript notes

    A shallow embedding of
    - [mapDict] and [reduceDict]   (challenges/dict/src/index.ts),
    - [arrayToDict] and [resolveOrTimeout]   (the generics notes),
    together with the part of the JavaScript runtime they run on: ordinary
    objects as ordered tables of own properties, a heap of such objects, and
    promises and timers driven by the event loop.

    Modelling conventions.
    - A JavaScript object is the list of its own enumerable string-keyed data
      properties, kept in the order in which [Object.keys] and [forEach]
      enumerate them: array-index keys in ascending numeric order first, then
      the other keys in creation order.  Objects are plain: their
      properties are writable data properties, and they inherit from
      [Object.prototype].  A write of the key [__proto__] to an object that
      has no own property of that name therefore reaches the accessor of
      [Object.prototype] and creates no own property.  The prototype the
      accessor installs is not tracked: being a plain object (or no object),
      it cannot intercept a later write.
    - A value of type [T | undefined] is an [option T]; [None] is
      [undefined].  A callback typed [(arg: T, idx: number) => S] may return
      [undefined] at run time, so it is a function into [option S].
    - Callbacks are Rocq functions, hence pure. *)

From Stdlib Require Import NArith Ascii String.
From stdpp Require Import base list strings.

Local Open Scope string_scope.
Local Open Scope list_scope.

(** ** Ordinary objects as ordered property tables *)

Module JsObject.

(** Decimal digit of a character, if it is one. *)
Definition digit (c : ascii) : option N :=
  let n := N_of_ascii c in
  if ((48 <=? n) && (n <=? 57))%N then Some (n - 48)%N else None.

Fixpoint digits (s : string) (acc : N) : option N :=
  match s with
  | EmptyString => Some acc
  | String c s' =>
      match digit c with
      | Some d => digits s' (10 * acc + d)%N
      | None => None
      end
  end.

(** A property key is an array index when it is the canonical decimal
    spelling (no sign, no leading zero) of an integer below [2^32 - 1]. *)
Definition array_index (k : string) : option N :=
  match k with
  | EmptyString => None
  | String c rest =>
      if Ascii.eqb c "0" && negb (String.eqb rest "") then None
      else match digits k 0 with
           | Some n => if (n <? 2 ^ 32 - 1)%N then Some n else None
           | None => None
           end
  end.

(** [precedes k k']: a newly created key [k] is enumerated before the
    existing key [k']. *)
Definition precedes (k k' : string) : bool :=
  match array_index k, array_index k' with
  | Some i, Some j => (i <? j)%N
  | Some _, None => true
  | None, _ => false
  end.

(** [may_follow k' k]: the existing key [k'] stays in front of a key [k]
    created after it. *)
Definition may_follow (k' k : string) : bool :=
  match array_index k', array_index k with
  | Some j, Some i => (j <=? i)%N
  | Some _, None => true
  | None, None => true
  | None, Some _ => false
  end.

Section Table.
Context {V : Type}.

Definition obj := list (string * V).

(** The object literal [{}]. *)
Definition empty : obj := [].

(** [Object.keys(o)]. *)
Definition keys (o : obj) : list string := o.*1.

Definition has_key (k : string) (o : obj) : bool :=
  existsb (String.eqb k) (keys o).

(** The own property [k] of [o], if there is one. *)
Fixpoint get (k : string) (o : obj) : option V :=
  match o with
  | [] => None
  | (k', v) :: o' => if String.eqb k k' then Some v else get k o'
  end.

(** Overwrite the value of an existing property; its place is kept. *)
Fixpoint update (k : string) (v : V) (o : obj) : obj :=
  match o with
  | [] => []
  | (k', v') :: o' =>
      if String.eqb k k' then (k', v) :: o' else (k', v') :: update k v o'
  end.

(** Create a property that does not exist yet. *)
Fixpoint create (k : string) (v : V) (o : obj) : obj :=
  match o with
  | [] => [(k, v)]
  | (k', v') :: o' =>
      if precedes k k' then (k, v) :: (k', v') :: o'
      else (k', v') :: create k v o'
  end.

(** The assignment [o[k] = v].  An own property is overwritten.  Otherwise
    the key [__proto__] is taken by the accessor inherited from
    [Object.prototype], whose setter creates no own property; any other key
    is created. *)
Definition set (k : string) (v : V) (o : obj) : obj :=
  if has_key k o then update k v o
  else if String.eqb k "__proto__" then o
  else create k v o.

End Table.

Arguments obj V : clear implicits.

(** The key sequences an object can have: no key twice, array indices
    ascending and in front. *)
Fixpoint ordered (ks : list string) : bool :=
  match ks with
  | [] => true
  | k :: ks' =>
      forallb (fun k' => may_follow k k' && negb (String.eqb k k')) ks'
      && ordered ks'
  end.

End JsObject.

Import JsObject.

(** ** The Dict challenge: [mapDict] and [reduceDict] *)

(** [Array.prototype.forEach], for a callback [(element, index) => ...] whose
    effect is a change of the state [St]; [idx] is the index of the head. *)
Fixpoint forEach {A St : Type} (cb : A -> nat -> St -> St)
    (l : list A) (idx : nat) (st : St) : St :=
  match l with
  | [] => st
  | x :: l' => forEach cb l' (S idx) (cb x idx st)
  end.

(** [type Dict<T> = { [anythingWeWant: string]: T | undefined }] *)
Definition Dict (T : Type) : Type := obj (option T).

(** The read [dict[dKey]]: [undefined] when the key is missing, and also when
    it is present and holds [undefined]. *)
Definition index {T : Type} (dict : Dict T) (dKey : string) : option T :=
  match get dKey dict with
  | Some currentItem => currentItem
  | None => None
  end.

(** One turn of the callback given to [forEach] in [mapDict]. *)
Definition mapDict_body {T S : Type} (dict : Dict T) (fn : T -> nat -> option S)
    (dKey : string) (idx : nat) (out : Dict S) : Dict S :=
  match index dict dKey with
  | Some currentItem => set dKey (fn currentItem idx) out
  | None => out
  end.

Definition mapDict {T S : Type} (dict : Dict T) (fn : T -> nat -> option S) : Dict S :=
  forEach (mapDict_body dict fn) (keys dict) 0 empty.

(** [export function reduceDict() {}]: no parameter is declared and the body
    is empty.  Arguments passed by a caller are ignored and the call
    evaluates to [undefined]. *)
Definition reduceDict {V A : Type}
    (_dict : obj V) (_fn : A -> V -> string -> A) (_initial : A) : option A :=
  None.

(** The fold the specification describes for [reduce]: entries are visited in
    iteration order, each one once, and the last accumulator is returned. *)
Definition reduce_spec {V A : Type}
    (m : obj V) (fn : A -> V -> string -> A) (initial : A) : A :=
  fold_left (fun acc e => fn acc e.2 e.1) m initial.

(** ** [arrayToDict] *)

(** The constraint [T extends { id: string }]. *)
Class HasId (T : Type) := id_of : T -> string.

Definition arrayToDict {T : Type} `{HasId T} (array : list T) : obj T :=
  forEach (fun val _ out => set (id_of val) val out) array 0 empty.

(** The records of the call in the notes,
    [arrayToDict([{ id: "a", value: "first", ... }, { id: "b", value: "second" }])]. *)
Record item : Type := Item { id : string; value : string }.

#[export] Instance item_HasId : HasId item := id.

(** ** The same functions on a heap

    [mapDict] and [arrayToDict] receive references.  To state what they leave
    untouched, the heap is a list of cells addressed by position and the
    functions allocate and write as the source does. *)

Module Heap.
Section Heap.
Context {C : Type}.

Definition loc := nat.
Definition heap := list C.

Definition alloc (c : C) (h : heap) : heap * loc := (h ++ [c], List.length h).
Definition read (l : loc) (h : heap) : option C := h !! l.
Definition write (l : loc) (c : C) (h : heap) : heap := <[l := c]> h.
End Heap.
Arguments heap C : clear implicits.
End Heap.

Import Heap.

(** [mapDict] with [dict] a reference: [const out = {}] allocates, the loop
    reads [dict] and writes [out], and the reference [out] is returned.
    [None] stands for a dangling argument, which no program can pass. *)
Definition mapDict_heap {V : Type} (dict : loc) (fn : V -> nat -> option V)
    (h : heap (Dict V)) : option (heap (Dict V) * loc) :=
  match read dict h with
  | None => None
  | Some d0 =>
      let '(h1, out) := alloc empty h in
      let cb dKey idx (h : heap (Dict V)) :=
        match read dict h, read out h with
        | Some d, Some o =>
            match index d dKey with
            | Some currentItem => write out (set dKey (fn currentItem idx) o) h
            | None => h
            end
        | _, _ => h
        end in
      Some (forEach cb (keys d0) 0 h1, out)
  end.

(** Heap cells for [arrayToDict]: the argument array and the result object.
    The elements [T] are the references to the records; the result holds the
    very same references.  The callback never writes the array, so the
    elements [forEach] visits are the ones read when the loop starts. *)
Inductive cell (T : Type) : Type :=
  | Arr (elems : list T)
  | Tab (props : obj T).
Arguments Arr {T} elems.
Arguments Tab {T} props.

Definition arrayToDict_heap {T : Type} `{HasId T} (array : loc)
    (h : heap (cell T)) : option (heap (cell T) * loc) :=
  match read array h with
  | Some (Arr elems) =>
      let '(h1, out) := alloc (Tab empty) h in
      let cb val (_ : nat) (h : heap (cell T)) :=
        match read out h with
        | Some (Tab o) => write out (Tab (set (id_of val) val o)) h
        | _ => h
        end in
      Some (forEach cb elems 0 h1, out)
  | _ => None
  end.

(** ** [resolveOrTimeout]

    The function builds a promise whose executor starts a timer and attaches
    a fulfilment reaction to the wrapped promise.  What happens next is
    decided by the event loop, which delivers two kinds of events: the
    wrapped promise settles, or the delay of the timer elapses. *)

Module Race.
Section Race.
Context {T : Type}.

(** How a promise settles; rejection reasons are strings, as the one the
    source rejects with. *)
Inductive settlement : Type :=
  | Fulfilled (val : T)
  | Rejected (reason : string).

Inductive promise : Type :=
  | Pending
  | Settled (s : settlement).

(** The timer made by [setTimeout]. *)
Inductive timer : Type := Scheduled | Cleared | Fired.

Record world : Type := World {
  wrapped : promise;   (* the argument [promise] *)
  result : promise;    (* the promise [resolveOrTimeout] returns *)
  task : timer;        (* [const task = setTimeout(...)] *)
  delay : N;           (* the delay [timeout] of [task], in ms *)
  unhandled : list string
    (* the rejections the host has reported as unhandled *)
}.

(** The resolving functions of the result promise: only the first call
    has an effect. *)
Definition resolve (val : T) (w : world) : world :=
  match result w with
  | Pending =>
      World (wrapped w) (Settled (Fulfilled val)) (task w) (delay w) (unhandled w)
  | Settled _ => w
  end.

Definition reject (reason : string) (w : world) : world :=
  match result w with
  | Pending =>
      World (wrapped w) (Settled (Rejected reason)) (task w) (delay w) (unhandled w)
  | Settled _ => w
  end.

(** [clearTimeout(task)]: cancels a timer that is still scheduled. *)
Definition clearTimeout (w : world) : world :=
  match task w with
  | Scheduled => World (wrapped w) (result w) Cleared (delay w) (unhandled w)
  | _ => w
  end.

(** [() => reject("time up!")] *)
Definition timer_callback (w : world) : world := reject "time up!" w.

(** [(val) => { clearTimeout(task); resolve(val); }] *)
Definition on_fulfilled (val : T) (w : world) : world :=
  resolve val (clearTimeout w).

(** The reaction registered by [promise.then(on_fulfilled)].  There is no
    rejection handler: a rejection rejects the promise that [then] returns.
    The source drops that promise, nothing handles its rejection, and the
    host reports it as unhandled. *)
Definition then_reaction (s : settlement) (w : world) : world :=
  match s with
  | Fulfilled val => on_fulfilled val w
  | Rejected reason =>
      World (wrapped w) (result w) (task w) (delay w) (unhandled w ++ [reason])
  end.

(** The call itself.  The executor runs synchronously: the timer is
    scheduled and the reaction attached.  If [promise] is settled
    already, its reaction job runs when the current job ends, before any
    timer can fire. *)
Definition resolveOrTimeout (promise : promise) (timeout : N) : world :=
  let w := World promise Pending Scheduled timeout [] in
  match promise with
  | Pending => w
  | Settled s => then_reaction s w
  end.

Inductive event : Type :=
  | Settles (s : settlement)   (* the wrapped promise settles *)
  | TimerFires.                (* the delay of [task] has elapsed *)

(** One turn of the event loop.  A promise settles once, and its
    reaction job runs before the next timer; a timer runs its callback
    only while it is scheduled. *)
Definition step (w : world) (ev : event) : world :=
  match ev with
  | Settles s =>
      match wrapped w with
      | Pending =>
          then_reaction s
            (World (Settled s) (result w) (task w) (delay w) (unhandled w))
      | Settled _ => w
      end
  | TimerFires =>
      match task w with
      | Scheduled =>
          timer_callback
            (World (wrapped w) (result w) Fired (delay w) (unhandled w))
      | _ => w
      end
  end.

Definition run (evs : list event) (w : world) : world := fold_left step evs w.

(** The three terminal states of the specification's state machine. *)
Inductive terminal : Type :=
  | Resolved (val : T)
  | RejectedWith (reason : string)
  | TimedOut.

(** The [Timeout] error kind is the rejection with ["time up!"]. *)
Definition is_timeout (p : promise) : bool :=
  match p with
  | Settled (Rejected reason) => String.eqb reason "time up!"
  | _ => false
  end.

Definition settled (p : promise) : bool :=
  match p with Pending => false | Settled _ => true end.

(** The terminal state a result promise stands for, if it is settled. *)
Definition outcome (p : promise) : option terminal :=
  match p with
  | Pending => None
  | Settled (Fulfilled val) => Some (Resolved val)
  | Settled (Rejected reason) =>
      Some (if is_timeout p then TimedOut else RejectedWith reason)
  end.

(** The terminal state an event asks for. *)
Definition signalled (ev : event) : option terminal :=
  match ev with
  | Settles s => outcome (Settled s)
  | TimerFires => Some TimedOut
  end.

(** How often the result promise leaves [Pending] along a run. *)
Fixpoint transitions (evs : list event) (w : world) : nat :=
  match evs with
  | [] => 0
  | ev :: evs' =>
      (if settled (result w) || negb (settled (result (step w ev)))
       then 0 else 1) + transitions evs' (step w ev)
  end.
End Race.
Arguments settlement T : clear implicits.
Arguments promise T : clear implicits.
Arguments world T : clear implicits.
Arguments event T : clear implicits.
Arguments terminal T : clear implicits.
End Race.

Import Race.

(** ** Auxiliary definitions used to state the properties *)

(** An entry that holds a value, as opposed to [undefined]. *)
Definition holds_value {T : Type} (e : string * option T) : bool :=
  match e.2 with Some _ => true | None => false end.

(** An entry that [mapDict] copies: it holds a value, and its key is not
    [__proto__]. *)
Definition copied {T : Type} (e : string * option T) : bool :=
  holds_value e && negb (String.eqb e.1 "__proto__").

(** The entries of [dict] that are copied, each with [fn] applied to the
    value and to the position the entry has in [dict]; [idx] is the position
    of the head. *)
Fixpoint mapped_entries {T S : Type} (fn : T -> nat -> option S)
    (dict : Dict T) (idx : nat) : Dict S :=
  match dict with
  | [] => []
  | (k, v) :: dict' =>
      match v with
      | Some x =>
          if String.eqb k "__proto__"
          then mapped_entries fn dict' (Datatypes.S idx)
          else (k, fn x idx) :: mapped_entries fn dict' (Datatypes.S idx)
      | None => mapped_entries fn dict' (Datatypes.S idx)
      end
  end.

(** The ids other than [__proto__]. *)
Definition own_ids (ids : list string) : list string :=
  List.filter (fun k => negb (String.eqb k "__proto__")) ids.

(** The last element of [array] whose id is [k]. *)
Definition last_with_id {T : Type} `{HasId T} (k : string) (array : list T) : option T :=
  last (List.filter (fun val => String.eqb k (id_of val)) array).

(** * Properties of property tables *)

(** The ids of [ids] in the order of their first occurrence; [seen] are the
    ids met so far. *)
Fixpoint first_occurrences (seen ids : list string) : list string :=
  match ids with
  | [] => []
  | k :: ids' =>
      if existsb (String.eqb k) seen then first_occurrences seen ids'
      else k :: first_occurrences (seen ++ [k]) ids'
  end.

(** ** The type guard [isDefined] *)

(** [function isDefined<T>(arg: T | undefined): arg is T], that is
    [typeof arg !== "undefined"]. *)
Definition isDefined {T : Type} (arg : option T) : bool :=
  match arg with
  | Some _ => true
  | None => false
  end.

(** [const list = ["a", "b", "c", undefined, "e"]] and
    [const filtered = list.filter(isDefined)]. *)
Definition list_of_notes : list (option string) :=
  [Some "a"; Some "b"; Some "c"; None; Some "e"].

Definition filtered : list (option string) := List.filter isDefined list_of_notes.

(** ** [getNameParts]

    JavaScript strings are sequences of UTF-16 code units, and the class
    [\s] of the regular expression is defined on code units, so names are
    lists of code units here. *)

Module NameParts.

Definition jsstring : Type := list N.

(** The code units of a string of the development (one per character). *)
Fixpoint of_string (s : string) : jsstring :=
  match s with
  | EmptyString => []
  | String c s' => N_of_ascii c :: of_string s'
  end.

(** The characters [\s] matches: white space and line terminators. *)
Definition white_space (c : N) : bool :=
  ((c =? 9) || (c =? 10) || (c =? 11) || (c =? 12) || (c =? 13) || (c =? 32)
   || (c =? 160) || (c =? 5760) || ((8192 <=? c) && (c <=? 8202))
   || (c =? 8232) || (c =? 8233) || (c =? 8239) || (c =? 8287)
   || (c =? 12288) || (c =? 65279))%N.

(** [s.split(sep)] for a separator that matches single characters: a part
    ends at every separator, empty parts are kept, and the empty string
    gives one empty part. *)
Fixpoint split (sep : N -> bool) (s : jsstring) : list jsstring :=
  match s with
  | [] => [[]]
  | c :: s' =>
      if sep c then [] :: split sep s'
      else match split sep s' with
           | part :: parts => (c :: part) :: parts
           | [] => [[c]]
           end
  end.

(** [parts.slice(start, end)] for indices that are not negative. *)
Definition slice {A : Type} (start end_ : nat) (parts : list A) : list A :=
  take (end_ - start) (drop start parts).

(** [parts.join(sep)] *)
Fixpoint join (sep : jsstring) (parts : list jsstring) : jsstring :=
  match parts with
  | [] => []
  | [part] => part
  | part :: parts' => part ++ sep ++ join sep parts'
  end.

(** The object [getNameParts] returns; a field is [None] when it holds
    [undefined]. *)
Record name_parts : Type := NameParts {
  first : option jsstring;
  middle : option jsstring;
  last_ : option jsstring
}.

(** A call returns a value or throws an [Error] with a message. *)
Inductive completion (A : Type) : Type :=
  | Return (a : A)
  | Throw (message : jsstring).
Arguments Return {A} a.
Arguments Throw {A} message.

(** [getNameParts(contact)], as a function of [contact.name]. *)
Definition getNameParts (name : jsstring) : completion name_parts :=
  let parts := split white_space name in
  if (length parts <? 2)%nat then
    Throw (of_string "Can't calculate name parts from name " ++ [34%N]
           ++ name ++ [34%N])
  else
    Return {|
      first := parts !! 0;
      middle :=
        if (length parts =? 2)%nat then None
        else Some (join (of_string " ") (slice 1 (length parts - 2) parts));
      last_ := parts !! (length parts - 1)
    |}.

End NameParts.

(** ** [drawShapes3]

    The shapes are objects on a heap; the array holds references to them.
    What [draw] does is up to each shape: it is a function on the shape the
    method is called on. *)

Module Shapes.
Section Shapes.
Context {D : Type}.

(** [type Shape2 = { draw(); isDrawn: boolean }], with the other fields of
    the object (the radius of a circle, the method itself) in [fields]. *)
Record shape : Type := Shape { isDrawn : bool; fields : D }.

Context (draw : shape -> shape).

(** [Array.prototype.map], for a callback that also changes the state. *)
Fixpoint map_st {A B St : Type} (cb : A -> St -> B * St)
    (l : list A) (st : St) : list B * St :=
  match l with
  | [] => ([], st)
  | x :: l' =>
      let '(y, st1) := cb x st in
      let '(ys, st2) := map_st cb l' st1 in
      (y :: ys, st2)
  end.

(** [(s) => { s.draw(); s.isDrawn = true; return s; }] *)
Definition draw_and_mark (s : loc) (h : heap shape) : loc * heap shape :=
  let h1 := alter draw s h in
  let h2 := alter (fun o => Shape true (fields o)) s h1 in
  (s, h2).

Definition drawShapes3 (shapes : list loc) (h : heap shape)
    : list loc * heap shape :=
  map_st draw_and_mark shapes h.

End Shapes.
Arguments shape D : clear implicits.
End Shapes.

(** ** [logWhenResolved]

    An async function: it waits for [p], and then either logs the value and
    fulfils its own promise, or, when [p] rejects, rejects its own promise
    with the same reason. *)

Module Logger.
Section Logger.
Context {T : Type}.

Record log_world : Type := LogWorld {
  awaited : promise T;       (* the argument [p] *)
  returned : promise unit;   (* the promise of the async function *)
  console : list T           (* the values logged after "Resolved to: " *)
}.

(** What runs when [await p] is resumed. *)
Definition resume (s : settlement T) (w : log_world) : log_world :=
  match returned w with
  | Pending =>
      match s with
      | Fulfilled val =>
          LogWorld (awaited w) (Settled (Fulfilled tt)) (console w ++ [val])
      | Rejected reason =>
          LogWorld (awaited w) (Settled (Rejected reason)) (console w)
      end
  | Settled _ => w
  end.

Definition logWhenResolved (p : promise T) : log_world :=
  let w := LogWorld p Pending [] in
  match p with
  | Pending => w
  | Settled s => resume s w
  end.

(** [p] settles: only the first settlement counts. *)
Definition settles (w : log_world) (s : settlement T) : log_world :=
  match awaited w with
  | Pending => resume s (LogWorld (Settled s) (returned w) (console w))
  | Settled _ => w
  end.

Definition log_run (ss : list (settlement T)) (w : log_world) : log_world :=
  fold_left settles ss w.

End Logger.
Arguments log_world T : clear implicits.
End Logger.

Example array_index_examples :
  array_index "0" = Some 0%N /\ array_index "10" = Some 10%N /\
  array_index "01" = None /\ array_index "-1" = None /\
  array_index "a" = None /\ array_index "" = None /\
  array_index "4294967294" = Some 4294967294%N /\
  array_index "4294967295" = None.
Proof. repeat split. Qed.

(** Creation order for names, numeric order for array indices, and an
    overwritten key keeps its place. *)
Example set_enumeration_order :
  set "1" 7 (set "b" 5 (set "2" 3 (set "a" 1 (set "b" 0 empty))))
  = [("1", 7); ("2", 3); ("b", 5); ("a", 1)].
Proof. reflexivity. Qed.

(** The calls written in the sources. *)
Example mapDict_source_calls :
  mapDict [("a", Some "a"); ("b", Some "b")] (fun str _ => Some str)
  = [("a", Some "a"); ("b", Some "b")] /\
  mapDict [("a", Some "a"); ("b", Some "b")] (fun str _ => Some [str])
  = [("a", Some ["a"]); ("b", Some ["b"])] /\
  mapDict [("a", Some 456%N); ("b", Some 123%N)] (fun str _ => Some str)
  = [("a", Some 456%N); ("b", Some 123%N)].
Proof. repeat split. Qed.

Example arrayToDict_source_call :
  arrayToDict [Item "a" "first"; Item "b" "second"]
  = [("a", Item "a" "first"); ("b", Item "b" "second")].
Proof. reflexivity. Qed.

Section TableFacts.
Context {V : Type}.
Implicit Types (o : obj V) (k : string) (v : V).

Lemma has_key_true k o : has_key k o = true <-> k ∈ keys o.
Proof.
  unfold has_key. rewrite existsb_exists. split.
  - intros (k' & Hin & Heq). apply String.eqb_eq in Heq. subst k'.
    by apply list_elem_of_In.
  - intros Hin. exists k. split; [by apply list_elem_of_In | apply String.eqb_refl].
Qed.

Lemma has_key_false k o : has_key k o = false <-> k ∉ keys o.
Proof.
  rewrite <- has_key_true. destruct (has_key k o); split; congruence.
Qed.

Lemma keys_update k v o : keys (update k v o) = keys o.
Proof.
  induction o as [|[k' v'] o IH]; simpl; [done|].
  destruct (String.eqb k k'); simpl; [done|]. by rewrite IH.
Qed.

Lemma elem_of_keys_create k v o k0 :
  k0 ∈ keys (create k v o) <-> k0 = k \/ k0 ∈ keys o.
Proof.
  induction o as [|[k' v'] o IH]; simpl.
  - rewrite list_elem_of_singleton. split; [by left | intros [?|Hin]; [done|]].
    by apply not_elem_of_nil in Hin.
  - destruct (precedes k k'); simpl.
    + rewrite !elem_of_cons. done.
    + rewrite !elem_of_cons, IH. tauto.
Qed.

Lemma elem_of_keys_set k v o k0 :
  k0 ∈ keys (set k v o) <-> (k0 = k /\ k <> "__proto__") \/ k0 ∈ keys o.
Proof.
  unfold set. destruct (has_key k o) eqn:Hk.
  - rewrite keys_update. apply has_key_true in Hk. split; [by right|].
    intros [[-> _]|]; done.
  - destruct (String.eqb_spec k "__proto__") as [->|Hne].
    + split; [by right | intros [[_ ?]|]; done].
    + rewrite elem_of_keys_create. split; intros [?|?]; try (by right).
      * by left.
      * left. tauto.
Qed.

Lemma set_proto v o :
  "__proto__" ∉ keys o -> set "__proto__" v o = o.
Proof.
  intros Hnin. unfold set. apply has_key_false in Hnin. by rewrite Hnin.
Qed.

Lemma get_None k o : get k o = None <-> k ∉ keys o.
Proof.
  induction o as [|[k' v'] o IH]; simpl.
  - split; [intros _; apply not_elem_of_nil | done].
  - rewrite not_elem_of_cons. destruct (String.eqb_spec k k') as [->|Hne].
    + split; [done | intros [? _]; done].
    + rewrite IH. tauto.
Qed.

Lemma get_update_eq k v o : k ∈ keys o -> get k (update k v o) = Some v.
Proof.
  induction o as [|[k' v'] o IH]; simpl; intros Hin.
  - by apply not_elem_of_nil in Hin.
  - destruct (String.eqb_spec k k') as [->|Hne]; simpl.
    + by rewrite String.eqb_refl.
    + apply String.eqb_neq in Hne as Hb. rewrite Hb. apply IH.
      apply elem_of_cons in Hin as [?|?]; done.
Qed.

Lemma get_update_ne k v o k0 : k0 <> k -> get k0 (update k v o) = get k0 o.
Proof.
  intros Hne. induction o as [|[k' v'] o IH]; simpl; [done|].
  destruct (String.eqb_spec k k') as [->|Hne']; simpl.
  - apply String.eqb_neq in Hne. by rewrite Hne.
  - by rewrite IH.
Qed.

Lemma get_create_eq k v o : k ∉ keys o -> get k (create k v o) = Some v.
Proof.
  induction o as [|[k' v'] o IH]; simpl; intros Hnin.
  - by rewrite String.eqb_refl.
  - apply not_elem_of_cons in Hnin as [Hne Hnin].
    destruct (precedes k k'); simpl.
    + by rewrite String.eqb_refl.
    + apply String.eqb_neq in Hne. rewrite Hne. by apply IH.
Qed.

Lemma get_create_ne k v o k0 : k0 <> k -> get k0 (create k v o) = get k0 o.
Proof.
  intros Hne. apply String.eqb_neq in Hne as Hb.
  induction o as [|[k' v'] o IH]; simpl.
  - by rewrite Hb.
  - destruct (precedes k k'); simpl; [by rewrite Hb|]. by rewrite IH.
Qed.

Lemma get_set_eq k v o : k <> "__proto__" -> get k (set k v o) = Some v.
Proof.
  intros Hne. unfold set. destruct (has_key k o) eqn:Hk.
  - apply get_update_eq. by apply has_key_true.
  - apply String.eqb_neq in Hne. rewrite Hne.
    apply get_create_eq. by apply has_key_false.
Qed.

Lemma get_set_ne k v o k0 : k0 <> k -> get k0 (set k v o) = get k0 o.
Proof.
  intros Hne. unfold set. destruct (has_key k o).
  - by apply get_update_ne.
  - destruct (String.eqb k "__proto__"); [done|]. by apply get_create_ne.
Qed.

(** A key that every existing key may stay in front of is created at the
    end of the enumeration. *)
Lemma create_at_end k v o :
  (forall k', k' ∈ keys o -> may_follow k' k = true) ->
  create k v o = o ++ [(k, v)].
Proof.
  induction o as [|[k' v'] o IH]; simpl; intros Hall; [done|].
  assert (Hk' : may_follow k' k = true) by (apply Hall; left).
  assert (Hp : precedes k k' = false).
  { unfold may_follow in Hk'. unfold precedes.
    destruct (array_index k), (array_index k'); try done.
    apply N.leb_le in Hk'. apply N.ltb_ge. lia. }
  rewrite Hp. f_equal. apply IH. intros k0 Hin. apply Hall. by right.
Qed.

Lemma get_app_fresh k v o1 o2 :
  k ∉ keys o1 -> get k (o1 ++ (k, v) :: o2) = Some v.
Proof.
  induction o1 as [|[k' v'] o1 IH]; simpl; intros Hnin.
  - by rewrite String.eqb_refl.
  - apply not_elem_of_cons in Hnin as [Hne Hnin].
    apply String.eqb_neq in Hne. rewrite Hne. by apply IH.
Qed.
End TableFacts.

(** ** The enumeration order is an invariant of property writes *)

Lemma may_follow_precedes_false k k' :
  precedes k k' = false -> may_follow k' k = true.
Proof.
  unfold precedes, may_follow.
  destruct (array_index k), (array_index k'); try done.
  intros Hlt. apply N.ltb_ge in Hlt. by apply N.leb_le.
Qed.

Lemma may_follow_precedes_trans k k' k'' :
  precedes k k' = true -> may_follow k' k'' = true -> may_follow k k'' = true.
Proof.
  unfold precedes, may_follow.
  destruct (array_index k), (array_index k'), (array_index k''); try done.
  intros Hlt Hle. apply N.ltb_lt in Hlt. apply N.leb_le in Hle.
  apply N.leb_le. lia.
Qed.

Lemma ordered_cons k ks :
  ordered (k :: ks) = true <->
  (forall k', k' ∈ ks -> may_follow k k' = true /\ k <> k') /\ ordered ks = true.
Proof.
  simpl. rewrite andb_true_iff, forallb_forall. split.
  - intros [Hall Hord]. split; [|done]. intros k' Hin.
    apply list_elem_of_In, Hall, andb_true_iff in Hin as [Hf Hne].
    split; [done|]. by apply negb_true_iff, String.eqb_neq in Hne.
  - intros [Hall Hord]. split; [|done]. intros k' Hin.
    apply list_elem_of_In, Hall in Hin as [Hf Hne].
    apply andb_true_iff. split; [done|]. by apply negb_true_iff, String.eqb_neq.
Qed.

Section OrderedFacts.
Context {V : Type}.
Implicit Types (o : obj V) (k : string) (v : V).

Lemma ordered_create k v o :
  k ∉ keys o -> ordered (keys o) = true -> ordered (keys (create k v o)) = true.
Proof.
  induction o as [|[k' v'] o IH]; simpl; intros Hfresh Hord; [done|].
  apply not_elem_of_cons in Hfresh as [Hne Hfresh].
  change (ordered (k' :: keys o) = true) in Hord.
  apply ordered_cons in Hord as [Hall Hord].
  destruct (precedes k k') eqn:Hp.
  - change (ordered (k :: k' :: keys o) = true). apply ordered_cons. split.
    + intros k'' Hin. apply elem_of_cons in Hin as [->|Hin].
      * split; [|done]. apply (may_follow_precedes_trans k k' k' Hp).
        unfold may_follow. destruct (array_index k'); [|done]. by apply N.leb_le.
      * destruct (Hall k'' Hin) as [Hf _]. split.
        -- by apply (may_follow_precedes_trans k k' k'').
        -- intros ->. done.
    + apply ordered_cons. done.
  - change (ordered (k' :: keys (create k v o)) = true). apply ordered_cons.
    split; [|by apply IH].
    intros k'' Hin. apply elem_of_keys_create in Hin as [->|Hin].
    + split; [by apply may_follow_precedes_false | done].
    + by apply Hall.
Qed.

Lemma ordered_set k v o :
  ordered (keys o) = true -> ordered (keys (set k v o)) = true.
Proof.
  intros Hord. unfold set. destruct (has_key k o) eqn:Hk.
  - by rewrite keys_update.
  - destruct (String.eqb k "__proto__"); [done|].
    apply ordered_create; [by apply has_key_false | done].
Qed.
End OrderedFacts.

(** Every object built by [arrayToDict] enumerates its keys in that order. *)
Lemma ordered_arrayToDict {T : Type} `{HasId T} (array : list T) :
  ordered (keys (arrayToDict array)) = true.
Proof.
  unfold arrayToDict. generalize 0.
  assert (Hempty : ordered (keys (@empty T)) = true) by done.
  revert Hempty. generalize (@empty T).
  induction array as [|val array IH]; intros out Hout idx; simpl; [done|].
  apply IH. by apply ordered_set.
Qed.

Lemma ordered_app_cons (l1 l2 : list string) (k : string) :
  ordered (l1 ++ k :: l2) = true ->
  forall k', k' ∈ l1 -> may_follow k' k = true /\ k' <> k.
Proof.
  induction l1 as [|k1 l1 IH]; simpl; intros Hord k' Hin.
  - by apply not_elem_of_nil in Hin.
  - apply andb_true_iff in Hord as [Hall Hord].
    apply elem_of_cons in Hin as [->|Hin]; [|by apply IH].
    rewrite forallb_forall in Hall.
    specialize (Hall k). rewrite in_app_iff in Hall.
    destruct (andb_prop _ _ (Hall (or_intror (or_introl eq_refl)))) as [Hf Hne].
    split; [done|]. apply negb_true_iff in Hne. by apply String.eqb_neq.
Qed.

(** * [mapDict] *)

Section MapDictFacts.
Context {T U : Type}.
Implicit Types (m : Dict T) (fn : T -> nat -> option U).

Lemma mapped_entries_app fn m1 m2 idx :
  mapped_entries fn (m1 ++ m2) idx =
  mapped_entries fn m1 idx ++ mapped_entries fn m2 (idx + length m1).
Proof.
  revert idx. induction m1 as [|[k [x|]] m1 IH]; intros idx; simpl.
  - by rewrite Nat.add_0_r.
  - rewrite IH. destruct (String.eqb k "__proto__"); simpl; do 3 f_equal; lia.
  - rewrite IH. do 2 f_equal. lia.
Qed.

Lemma keys_mapped_entries fn m idx :
  keys (mapped_entries fn m idx) = keys (List.filter copied m).
Proof.
  revert idx. induction m as [|[k [x|]] m IH]; intros idx; simpl; [done| |].
  - unfold copied. simpl. destruct (String.eqb k "__proto__"); simpl.
    + apply IH.
    + unfold keys in *. simpl. by rewrite IH.
  - apply IH.
Qed.

Lemma elem_of_keys_filter (P : string * option T -> bool) m k :
  k ∈ keys (List.filter P m) -> k ∈ keys m.
Proof.
  unfold keys. rewrite !list_elem_of_fmap. intros (e & -> & Hin).
  exists e. split; [done|]. apply list_elem_of_In in Hin.
  apply filter_In in Hin as [Hin _]. by apply list_elem_of_In.
Qed.

Lemma elem_of_keys_mapped_entries fn m idx k :
  k ∈ keys (mapped_entries fn m idx) -> k ∈ keys m.
Proof. rewrite keys_mapped_entries. apply elem_of_keys_filter. Qed.

(** The loop invariant of [mapDict]: after the keys of [m1] have been
    visited, [out] holds the mapped entries of [m1]. *)
Lemma mapDict_loop fn m2 : forall m1,
  ordered (keys (m1 ++ m2)) = true ->
  forEach (mapDict_body (m1 ++ m2) fn) (keys m2) (length m1)
          (mapped_entries fn m1 0)
  = mapped_entries fn (m1 ++ m2) 0.
Proof.
  induction m2 as [|[k v] m2 IH]; intros m1 Hord; simpl.
  - by rewrite app_nil_r.
  - assert (Hfront : forall k', k' ∈ keys m1 -> may_follow k' k = true /\ k' <> k).
    { apply (ordered_app_cons (keys m1) (keys m2) k).
      revert Hord. unfold keys. by rewrite fmap_app. }
    assert (Hfresh : k ∉ keys m1).
    { intros Hin. by destruct (Hfront k Hin). }
    assert (Hstep : mapDict_body (m1 ++ (k, v) :: m2) fn k (length m1)
                      (mapped_entries fn m1 0)
                    = mapped_entries fn (m1 ++ [(k, v)]) 0).
    { unfold mapDict_body, index. rewrite (get_app_fresh k v m1 m2 Hfresh).
      rewrite mapped_entries_app. destruct v as [x|]; simpl.
      - unfold set.
        assert (Hno : has_key k (mapped_entries fn m1 0) = false).
        { apply has_key_false. intros Hin.
          by apply elem_of_keys_mapped_entries in Hin. }
        rewrite Hno. destruct (String.eqb k "__proto__"); [by rewrite app_nil_r|].
        apply create_at_end. intros k' Hin.
        apply elem_of_keys_mapped_entries in Hin. by destruct (Hfront k' Hin).
      - by rewrite app_nil_r. }
    rewrite Hstep.
    replace (m1 ++ (k, v) :: m2) with ((m1 ++ [(k, v)]) ++ m2)
      by (by rewrite <- app_assoc).
    replace (Datatypes.S (length m1)) with (length (m1 ++ [(k, v)]))
      by (rewrite length_app; simpl; lia).
    apply IH. by rewrite <- app_assoc.
Qed.

(** [mapDict] computes the mapped entries of its argument. *)
Lemma mapDict_mapped_entries fn m :
  ordered (keys m) = true -> mapDict m fn = mapped_entries fn m 0.
Proof.
  intros Hord. unfold mapDict. apply (mapDict_loop fn m []). done.
Qed.

Lemma get_mapped_entries fn m : forall idx0 idx k x,
  ordered (keys m) = true ->
  m !! idx = Some (k, Some x) ->
  k <> "__proto__" ->
  get k (mapped_entries fn m idx0) = Some (fn x (idx0 + idx)).
Proof.
  induction m as [|[k' v'] m IH]; intros idx0 idx k x Hord Hlook Hk; [done|].
  simpl in Hord. apply andb_true_iff in Hord as [Hall Hord].
  apply String.eqb_neq in Hk as Hkb.
  destruct idx as [|idx]; simpl in Hlook.
  - injection Hlook as -> ->. simpl. rewrite Hkb. simpl.
    rewrite String.eqb_refl. by rewrite Nat.add_0_r.
  - assert (Hne : k <> k').
    { rewrite forallb_forall in Hall.
      assert (Hin : In k (keys m)).
      { apply list_elem_of_In. unfold keys. apply list_elem_of_fmap.
        exists (k, Some x). split; [done|]. by eapply list_elem_of_lookup_2. }
      destruct (andb_prop _ _ (Hall k Hin)) as [_ Hb].
      apply negb_true_iff, String.eqb_neq in Hb. done. }
    apply String.eqb_neq in Hne.
    assert (Hrest : get k (mapped_entries fn m (Datatypes.S idx0))
                    = Some (fn x (idx0 + Datatypes.S idx))).
    { rewrite (IH (Datatypes.S idx0) idx k x Hord Hlook Hk). do 2 f_equal. lia. }
    destruct v' as [x'|]; simpl; [|done].
    destruct (String.eqb k' "__proto__"); simpl; [done|]. by rewrite Hne.
Qed.

Lemma ordered_filter (P : string * option T -> bool) m :
  ordered (keys m) = true -> ordered (keys (List.filter P m)) = true.
Proof.
  induction m as [|e m IH]; simpl; [done|]. intros Hord.
  apply andb_true_iff in Hord as [Hall Hord].
  destruct (P e); simpl; [|by apply IH].
  apply andb_true_iff. split; [|by apply IH].
  rewrite forallb_forall in Hall. apply forallb_forall. intros k Hin.
  apply Hall. apply list_elem_of_In. apply list_elem_of_In in Hin.
  by apply elem_of_keys_filter in Hin.
Qed.

Lemma ordered_mapped_entries fn m idx :
  ordered (keys m) = true -> ordered (keys (mapped_entries fn m idx)) = true.
Proof.
  intros Hord. rewrite keys_mapped_entries. by apply ordered_filter.
Qed.
End MapDictFacts.

Section MapDictLaws.
Context {T : Type}.
Implicit Types (m : Dict T).

Lemma mapped_entries_identity m idx :
  mapped_entries (fun x _ => Some x) m idx = List.filter copied m.
Proof.
  revert idx. induction m as [|[k [x|]] m IH]; intros idx; simpl; [done| |].
  - unfold copied. simpl. destruct (String.eqb k "__proto__"); simpl.
    + apply IH.
    + by rewrite IH.
  - apply IH.
Qed.

Lemma filter_copied_all m :
  forallb copied m = true -> List.filter copied m = m.
Proof.
  induction m as [|e m IH]; simpl; [done|]. intros Hall.
  apply andb_true_iff in Hall as [He Hall]. rewrite He. by rewrite IH.
Qed.

(** No key holds [undefined] and no key is [__proto__]: every entry is
    copied. *)
Lemma forallb_copied m :
  forallb holds_value m = true -> has_key "__proto__" m = false ->
  forallb copied m = true.
Proof.
  induction m as [|[k v] m IH]; [done|]. intros Hall Hproto.
  change (holds_value (k, v) && forallb holds_value m = true) in Hall.
  change (String.eqb "__proto__" k || has_key "__proto__" m = false) in Hproto.
  apply andb_true_iff in Hall as [He Hall].
  apply orb_false_iff in Hproto as [Hk Hproto].
  change (copied (k, v) && forallb copied m = true).
  rewrite (IH Hall Hproto), andb_true_r. unfold copied. rewrite He.
  rewrite String.eqb_sym in Hk. cbn [fst]. by rewrite Hk.
Qed.

Lemma mapped_entries_compose {U W : Type}
    (f : T -> option U) (g : option U -> option W) m :
  (forall k x, (k, Some x) ∈ m -> f x <> None) ->
  forall i j,
    mapped_entries (fun y _ => g (Some y)) (mapped_entries (fun x _ => f x) m i) j
    = mapped_entries (fun x _ => g (f x)) m i.
Proof.
  induction m as [|[k [x|]] m IH]; intros Hdef i j; simpl; [done| |].
  - assert (Hx : f x <> None) by (apply (Hdef k); left).
    assert (Hrest : forall j',
      mapped_entries (fun y _ => g (Some y))
        (mapped_entries (fun x _ => f x) m (Datatypes.S i)) j'
      = mapped_entries (fun x _ => g (f x)) m (Datatypes.S i)).
    { intros j'. apply IH. intros k' x' Hin. apply (Hdef k'). by right. }
    destruct (String.eqb k "__proto__") eqn:Hk; [apply Hrest|].
    destruct (f x) as [y|] eqn:Hfx; [|done]. simpl. rewrite Hk.
    f_equal. apply Hrest.
  - apply IH. intros k' x' Hin. apply (Hdef k'). by right.
Qed.
End MapDictLaws.




(** C6, as the specification states it, fails: mapping the identity over a
    dictionary loses a key that holds [undefined], and it loses the key
    [__proto__]. *)
Lemma mapDict_identity_loses_key :
  (let m : Dict nat := [("a", None)] in
   ordered (keys m) = true /\
   mapDict m (fun x _ => Some x) = [] /\
   keys (mapDict m (fun x _ => Some x)) <> keys m) /\
  (let m : Dict nat := [("__proto__", Some 1); ("a", Some 2)] in
   ordered (keys m) = true /\
   forallb holds_value m = true /\
   mapDict m (fun x _ => Some x) = [("a", Some 2)] /\
   mapDict m (fun x _ => Some x) <> m).
Proof. repeat split; discriminate. Qed.

(** Mapping the identity over [m] yields the entries of [m] that hold a
    value and whose key is not [__proto__], with their keys, order and
    values. *)
Lemma mapDict_identity_filter {T : Type} (m : Dict T) :
  ordered (keys m) = true ->
  mapDict m (fun x _ => Some x) = List.filter copied m.
Proof.
  intros Hord. rewrite (mapDict_mapped_entries _ m Hord).
  apply mapped_entries_identity.
Qed.

(** C6 (amended): for every dictionary [m] none of whose keys holds
    [undefined] and none of whose keys is [__proto__], mapping the identity
    over [m] gives a dictionary with the keys, the order and the values of
    [m]. *)
Theorem mapDict_identity {T : Type} (m : Dict T) :
  ordered (keys m) = true ->
  forallb holds_value m = true ->
  has_key "__proto__" m = false ->
  mapDict m (fun x _ => Some x) = m.
Proof.
  intros Hord Hall Hproto. rewrite (mapDict_identity_filter m Hord).
  by apply filter_copied_all, forallb_copied.
Qed.

Lemma mapDict_identity_witness :
  let m : Dict nat := [("0", Some 4); ("x", Some 5); ("y", Some 6)] in
  ordered (keys m) = true /\ forallb holds_value m = true /\
  has_key "__proto__" m = false /\
  mapDict m (fun x _ => Some x) = m.
Proof.
  split; [reflexivity|]. split; [reflexivity|]. split; [reflexivity|].
  exact (mapDict_identity [("0", Some 4); ("x", Some 5); ("y", Some 6)]
           eq_refl eq_refl eq_refl).
Defined.




(** * Heap frames *)

Section HeapFacts.
Context {C : Type}.
Implicit Types (h : heap C) (c : C) (l : loc).

Lemma read_old h c l : l < length h -> read l (h ++ [c]) = read l h.
Proof. intros Hl. unfold read. by apply lookup_app_l. Qed.

Lemma read_new h c : read (length h) (h ++ [c]) = Some c.
Proof. unfold read. by rewrite list_lookup_middle. Qed.

Lemma write_new h c c' : write (length h) c' (h ++ [c]) = h ++ [c'].
Proof.
  unfold write. rewrite insert_app_r_alt by lia.
  by rewrite Nat.sub_diag.
Qed.

Lemma read_Some_lt h l c : read l h = Some c -> l < length h.
Proof. unfold read. apply lookup_lt_Some. Qed.
End HeapFacts.

(** On the heap, the loop of [mapDict] only ever rewrites the cell of
    [out]; what it stores there is what the loop on values computes. *)
Lemma mapDict_heap_loop {V : Type} (h : heap (Dict V)) (dict : loc)
    (m : Dict V) (fn : V -> nat -> option V) (ks : list string) :
  read dict h = Some m ->
  forall idx o,
    forEach (fun dKey idx (h' : heap (Dict V)) =>
               match read dict h', read (length h) h' with
               | Some d, Some o' =>
                   match index d dKey with
                   | Some currentItem =>
                       write (length h) (set dKey (fn currentItem idx) o') h'
                   | None => h'
                   end
               | _, _ => h'
               end) ks idx (h ++ [o])
    = h ++ [forEach (mapDict_body m fn) ks idx o].
Proof.
  intros Hd. induction ks as [|k ks IH]; intros idx o; simpl; [done|].
  rewrite read_old by (by eapply read_Some_lt).
  rewrite Hd, read_new. unfold mapDict_body at 2.
  destruct (index m k) as [x|]; [|apply IH].
  rewrite write_new. apply IH.
Qed.

Lemma mapDict_heap_result {V : Type} (h : heap (Dict V)) (dict : loc)
    (m : Dict V) (fn : V -> nat -> option V) :
  read dict h = Some m ->
  mapDict_heap dict fn h = Some (h ++ [mapDict m fn], length h).
Proof.
  intros Hd. unfold mapDict_heap. rewrite Hd. simpl.
  f_equal. f_equal. apply (mapDict_heap_loop h dict m fn (keys m) Hd).
Qed.

(** C8: a call of [mapDict] leaves the receiver as it was: the heap after the
    call has the same object at [dict], with the same keys, values and order,
    every other object that existed is unchanged too, and the result is a
    fresh object that depends on [dict] and [fn] only. *)
Theorem mapDict_does_not_mutate {V : Type} (h : heap (Dict V)) (dict : loc)
    (m : Dict V) (fn : V -> nat -> option V) :
  read dict h = Some m ->
  exists h' out,
    mapDict_heap dict fn h = Some (h', out) /\
    read dict h' = Some m /\
    out <> dict /\
    read out h = None /\
    read out h' = Some (mapDict m fn) /\
    (forall l, l < length h -> read l h' = read l h).
Proof.
  intros Hd. exists (h ++ [mapDict m fn]), (length h).
  pose proof (read_Some_lt h dict m Hd) as Hlt.
  split; [by apply mapDict_heap_result|].
  split; [by rewrite read_old|].
  split; [lia|].
  split; [unfold read; by apply lookup_ge_None|].
  split; [apply read_new|].
  intros l Hl. by apply read_old.
Qed.

Lemma mapDict_does_not_mutate_witness :
  let m : Dict nat := [("a", Some 1); ("b", None)] in
  let h : heap (Dict nat) := [[("z", Some 0)]; m] in
  exists h' out,
    mapDict_heap 1 (fun x idx => Some (x + idx)) h = Some (h', out) /\
    read 1 h' = Some m /\
    out <> 1 /\
    read out h = None /\
    read out h' = Some (mapDict m (fun x idx => Some (x + idx))) /\
    (forall l, l < length h -> read l h' = read l h).
Proof.
  exact (mapDict_does_not_mutate
           [[("z", Some 0)]; [("a", Some 1); ("b", None)]] 1
           [("a", Some 1); ("b", None)] (fun x idx => Some (x + idx)) eq_refl).
Defined.

(** * [reduceDict] *)

(** C9: the source function is an empty stub.  On the dictionary [{a: 1, b: 2}],
    summing from [0], the fold of the specification returns [3]; the call of
    [reduceDict] returns [undefined], as it does for every argument. *)
Theorem reduceDict_is_a_stub :
  let dict : obj nat := [("a", 1); ("b", 2)] in
  let fn := fun (acc : nat) (v : nat) (_ : string) => acc + v in
  reduce_spec dict fn 0 = 3 /\
  reduceDict dict fn 0 = None /\
  (forall (V A : Type) (d : obj V) (f : A -> V -> string -> A) (a : A),
      reduceDict d f a = None).
Proof. repeat split. Qed.

(** * [arrayToDict] *)

Section ArrayToDictFacts.
Context {T : Type} `{HasId T}.
Implicit Types (array : list T) (out : obj T) (k : string).

Lemma arrayToDict_loop_keys array : forall idx out k,
  k ∈ keys (forEach (fun val _ out => set (id_of val) val out) array idx out)
  <-> ((k ∈ id_of <$> array) /\ k <> "__proto__") \/ k ∈ keys out.
Proof.
  induction array as [|val array IH]; intros idx out k; simpl.
  - split; [by right | intros [[Hin _]|]; [|done]]. by apply not_elem_of_nil in Hin.
  - rewrite IH, elem_of_keys_set, elem_of_cons. split.
    + intros [[Hin Hk]|[[-> Hk]|Hin]]; [left | left | by right]; split; auto.
    + intros [[[->|Hin] Hk]|Hin]; [right; left | left | right; right]; auto.
Qed.

Lemma last_with_id_cons k val array :
  last_with_id k (val :: array) =
  match last_with_id k array with
  | Some v => Some v
  | None => if String.eqb k (id_of val) then Some val else None
  end.
Proof.
  unfold last_with_id. simpl. destruct (String.eqb k (id_of val)).
  - by rewrite last_cons.
  - by destruct (last _).
Qed.

Lemma arrayToDict_loop_get array : forall idx out k,
  k <> "__proto__" ->
  get k (forEach (fun val _ out => set (id_of val) val out) array idx out)
  = match last_with_id k array with
    | Some v => Some v
    | None => get k out
    end.
Proof.
  induction array as [|val array IH]; intros idx out k Hk; simpl; [done|].
  rewrite (IH _ _ _ Hk), last_with_id_cons.
  destruct (last_with_id k array); [done|].
  destruct (String.eqb_spec k (id_of val)) as [->|Hne].
  - by apply get_set_eq.
  - by apply get_set_ne.
Qed.

Lemma arrayToDict_heap_loop (h : heap (cell T)) array : forall idx out,
  forEach (fun val (_ : nat) (h' : heap (cell T)) =>
             match read (length h) h' with
             | Some (Tab o) => write (length h) (Tab (set (id_of val) val o)) h'
             | _ => h'
             end) array idx (h ++ [Tab out])
  = h ++ [Tab (forEach (fun val _ out => set (id_of val) val out) array idx out)].
Proof.
  induction array as [|val array IH]; intros idx out; simpl; [done|].
  by rewrite read_new, write_new, IH.
Qed.

Lemma arrayToDict_keys array k :
  k ∈ keys (arrayToDict array) <-> (k ∈ id_of <$> array) /\ k <> "__proto__".
Proof.
  unfold arrayToDict. rewrite arrayToDict_loop_keys.
  split; [intros [?|Hin]; [done|] | by left]. by apply not_elem_of_nil in Hin.
Qed.

Lemma arrayToDict_get array k :
  k <> "__proto__" -> get k (arrayToDict array) = last_with_id k array.
Proof.
  intros Hk. unfold arrayToDict. rewrite (arrayToDict_loop_get _ _ _ _ Hk).
  by destruct (last_with_id k array).
Qed.

Lemma arrayToDict_get_proto array : get "__proto__" (arrayToDict array) = None.
Proof. apply get_None. rewrite arrayToDict_keys. by intros [_ ?]. Qed.
End ArrayToDictFacts.




(** * [resolveOrTimeout] *)

Section RaceFacts.
Context {T : Type}.
Implicit Types (w : world T) (ev : event T) (evs : list (event T)).

(** A settled result promise never changes. *)
Lemma step_result_settled w ev :
  settled (result w) = true -> result (step w ev) = result w.
Proof.
  intros Hs. destruct w as [wr [|s] tk d un]; [done|].
  destruct ev as [s'|]; simpl.
  - destruct wr; [|done]. destruct s'; [|done]. by destruct tk.
  - by destruct tk.
Qed.

(** A timer that is not scheduled stays as it is. *)
Lemma step_task_not_scheduled w ev :
  task w <> Scheduled -> task (step w ev) = task w.
Proof.
  intros Hs. destruct w as [wr rs tk d un]. simpl in Hs.
  destruct ev as [s'|]; simpl.
  - destruct wr; [|done]. destruct s'; [|done]. by destruct tk, rs.
  - by destruct tk.
Qed.

(** The fulfilment handler reports nothing to the host. *)
Lemma step_fulfilled_unhandled w (val : T) :
  unhandled (step w (Settles (Fulfilled val))) = unhandled w.
Proof.
  destruct w as [wr rs tk d un]. simpl.
  destruct wr; [|done]. by destruct tk, rs.
Qed.

Lemma run_cons ev evs w : run (ev :: evs) w = run evs (step w ev).
Proof. reflexivity. Qed.

Lemma run_app evs1 evs2 w : run (evs1 ++ evs2) w = run evs2 (run evs1 w).
Proof. unfold run. apply fold_left_app. Qed.

Lemma run_invariant (P : world T -> Prop) :
  (forall w ev, P w -> P (step w ev)) ->
  forall evs w, P w -> P (run evs w).
Proof.
  intros Hstep. unfold run.
  induction evs as [|ev evs IH]; intros w Hw; simpl; [done|].
  apply IH. by apply Hstep.
Qed.

Lemma run_result_settled evs : forall w,
  settled (result w) = true -> result (run evs w) = result w.
Proof.
  unfold run. induction evs as [|ev evs IH]; intros w Hs; simpl; [done|].
  rewrite IH; rewrite step_result_settled; done.
Qed.

Lemma run_task_not_scheduled evs : forall w,
  task w <> Scheduled -> task (run evs w) = task w.
Proof.
  unfold run. induction evs as [|ev evs IH]; intros w Hs; simpl; [done|].
  rewrite IH; rewrite step_task_not_scheduled; done.
Qed.

Lemma transitions_settled evs : forall w,
  settled (result w) = true -> transitions evs w = 0.
Proof.
  induction evs as [|ev evs IH]; intros w Hs; simpl; [done|].
  rewrite Hs. simpl. apply IH. by rewrite step_result_settled.
Qed.

Lemma transitions_le_1 evs : forall w, transitions evs w <= 1.
Proof.
  induction evs as [|ev evs IH]; intros w; simpl; [lia|].
  destruct (settled (result w)) eqn:Hw; simpl.
  - rewrite transitions_settled; [lia|]. by rewrite step_result_settled.
  - destruct (settled (result (step w ev))) eqn:Hs; simpl.
    + rewrite transitions_settled; [lia | done].
    + apply IH.
Qed.

(** The result promise has left [Pending] once exactly when it is settled. *)
Lemma transitions_count evs : forall w,
  (if settled (result w) then 1 else 0) + transitions evs w
  = if settled (result (run evs w)) then 1 else 0.
Proof.
  induction evs as [|ev evs IH]; intros w; [simpl; lia|].
  rewrite run_cons, <- (IH (step w ev)). simpl.
  destruct (settled (result w)) eqn:Hw; simpl.
  - by rewrite step_result_settled, Hw.
  - by destruct (settled (result (step w ev))).
Qed.

Lemma step_scheduled_iff_pending w ev :
  (task w = Scheduled <-> result w = Pending) ->
  (task (step w ev) = Scheduled <-> result (step w ev) = Pending).
Proof.
  destruct w as [wr rs tk d un]. simpl. intros Hinv.
  destruct ev as [[val|reason]|]; simpl.
  - destruct wr; [|done]. destruct tk, rs; simpl; intuition congruence.
  - destruct wr; simpl in *; assumption.
  - destruct tk, rs; simpl; intuition congruence.
Qed.

Lemma call_scheduled_iff_pending (promise : promise T) (timeout : N) :
  task (resolveOrTimeout promise timeout) = Scheduled <->
  result (resolveOrTimeout promise timeout) = Pending.
Proof. destruct promise as [|[val|reason]]; simpl; done. Qed.

Lemma run_scheduled_iff_pending (promise : promise T) (timeout : N) evs :
  task (run evs (resolveOrTimeout promise timeout)) = Scheduled <->
  result (run evs (resolveOrTimeout promise timeout)) = Pending.
Proof.
  apply (run_invariant (fun w => task w = Scheduled <-> result w = Pending)).
  - apply step_scheduled_iff_pending.
  - apply call_scheduled_iff_pending.
Qed.

Lemma step_provenance w ev :
  match result w with
  | Pending => True
  | Settled (Fulfilled val) => wrapped w = Settled (Fulfilled val)
  | Settled (Rejected reason) => reason = "time up!" /\ task w = Fired
  end ->
  match result (step w ev) with
  | Pending => True
  | Settled (Fulfilled val) => wrapped (step w ev) = Settled (Fulfilled val)
  | Settled (Rejected reason) => reason = "time up!" /\ task (step w ev) = Fired
  end.
Proof.
  destruct w as [wr rs tk d un]. simpl. intros Hinv.
  destruct ev as [[val|reason]|]; simpl.
  - destruct wr; [|done]. destruct tk, rs as [|[v|r]]; simpl in *;
      intuition congruence.
  - destruct wr, rs as [|[v|r]]; simpl in *; (assumption || congruence).
  - destruct tk, rs as [|[v|r]]; simpl in *; intuition congruence.
Qed.

Lemma run_provenance (promise : promise T) (timeout : N) evs :
  match result (run evs (resolveOrTimeout promise timeout)) with
  | Pending => True
  | Settled (Fulfilled val) =>
      wrapped (run evs (resolveOrTimeout promise timeout)) = Settled (Fulfilled val)
  | Settled (Rejected reason) =>
      reason = "time up!" /\ task (run evs (resolveOrTimeout promise timeout)) = Fired
  end.
Proof.
  apply (run_invariant (fun w =>
    match result w with
    | Pending => True
    | Settled (Fulfilled val) => wrapped w = Settled (Fulfilled val)
    | Settled (Rejected reason) => reason = "time up!" /\ task w = Fired
    end)).
  - apply step_provenance.
  - destruct promise as [|[val|reason]]; simpl; done.
Qed.

(** Once the timer event has been delivered the result is settled. *)
Lemma run_settled_after_timer (promise : promise T) (timeout : N) before after :
  settled (result (run (before ++ TimerFires :: after)
                       (resolveOrTimeout promise timeout))) = true.
Proof.
  rewrite run_app, run_cons.
  pose proof (run_scheduled_iff_pending promise timeout before) as timer_iff.
  set (w1 := run before (resolveOrTimeout promise timeout)) in *.
  assert (Hs : settled (result (step w1 TimerFires)) = true).
  { destruct w1 as [wr rs tk d un]. simpl in *.
    destruct tk, rs; simpl; try done; intuition congruence. }
  by rewrite run_result_settled.
Qed.

(** The wrapped promise settles once. *)
Lemma run_wrapped_settled evs : forall w s,
  wrapped w = Settled s -> wrapped (run evs w) = Settled s.
Proof.
  unfold run. induction evs as [|ev evs IH]; intros w s Hw; simpl; [done|].
  apply IH. destruct w as [wr rs tk d un]. simpl in Hw. subst wr.
  destruct ev as [s'|]; simpl; [done|]. by destruct tk, rs.
Qed.
End RaceFacts.

(** The scenarios of the specification: a computation that is fulfilled with
    ["done"] before the 500 ms timer resolves the result with ["done"]; one
    that is fulfilled after the 100 ms timer leaves it rejected by the
    timeout. *)
Example scenario_done_before_timeout :
  result (run [Settles (Fulfilled "done"); TimerFires] (resolveOrTimeout Pending 500))
  = Settled (Fulfilled "done").
Proof. reflexivity. Qed.

Example scenario_timeout_before_done :
  result (run [TimerFires; Settles (Fulfilled "done")] (resolveOrTimeout Pending 100))
  = Settled (Rejected "time up!").
Proof. reflexivity. Qed.

(** C1, as the specification states it, fails for a failure: the wrapped
    promise rejects with ["boom"] before the timer fires, the timer stays
    scheduled and the result stays pending; when the timer fires the result
    is rejected with ["time up!"], not with ["boom"]. *)
Lemma rejection_is_not_propagated :
  let w0 : world nat := resolveOrTimeout Pending 3000 in
  let w1 := run [Settles (Rejected "boom")] w0 in
  let w2 := run [Settles (Rejected "boom"); TimerFires] w0 in
  result w1 = Pending /\ task w1 = Scheduled /\
  result w2 = Settled (Rejected "time up!") /\
  result w2 <> Settled (Rejected "boom").
Proof. repeat split. discriminate. Qed.

(** C1 (amended): if the wrapped promise is fulfilled before the timer
    fires, be it after the call or already at the call, the timer is
    cancelled and the result promise is fulfilled with the same value,
    whatever happens later. *)
Theorem fulfilment_is_propagated {T : Type}
    (val : T) (timeout : N) (later : list (event T)) :
  let w1 := step (resolveOrTimeout Pending timeout) (Settles (Fulfilled val)) in
  (task w1 = Cleared /\ result w1 = Settled (Fulfilled val) /\
   result (run (Settles (Fulfilled val) :: later) (resolveOrTimeout Pending timeout))
   = Settled (Fulfilled val)) /\
  (task (resolveOrTimeout (Settled (Fulfilled val)) timeout) = Cleared /\
   result (run later (resolveOrTimeout (Settled (Fulfilled val)) timeout))
   = Settled (Fulfilled val)).
Proof.
  intros w1. rewrite run_cons. fold w1.
  repeat split; try done; by rewrite run_result_settled.
Qed.

(** C2, as the specification states it, fails: when the wrapped promise
    rejects after the timer has fired, the promise returned by
    [promise.then] is rejected, nothing handles it, and the host reports an
    unhandled rejection.  That is an effect of the losing computation. *)
Lemma late_rejection_is_reported :
  let w0 : world nat := resolveOrTimeout Pending 3000 in
  let w1 := run [TimerFires] w0 in
  let w2 := run [TimerFires; Settles (Rejected "boom")] w0 in
  result w1 = Settled (Rejected "time up!") /\ unhandled w1 = [] /\
  result w2 = Settled (Rejected "time up!") /\ unhandled w2 = ["boom"].
Proof. repeat split. Qed.

(** C2 (amended): if the timer fires while the wrapped promise is pending,
    the result promise is rejected with the timeout reason, once; whatever
    the wrapped promise does later changes neither the result promise nor
    the timer.  A late fulfilment has no effect at all; a late rejection is
    reported by the host as unhandled. *)
Theorem timer_first_times_out {T : Type} (timeout : N) (later : list (event T)) :
  let w0 : world T := resolveOrTimeout Pending timeout in
  let w := run (TimerFires :: later) w0 in
  result w = Settled (Rejected "time up!") /\
  is_timeout (result w) = true /\
  task w = Fired /\
  transitions (TimerFires :: later) w0 = 1 /\
  (forall s, result (step w (Settles s)) = result w /\
             task (step w (Settles s)) = task w) /\
  (forall val, unhandled (step w (Settles (Fulfilled val))) = unhandled w) /\
  (forall reason,
      unhandled (step (step w0 TimerFires) (Settles (Rejected reason))) = [reason]).
Proof.
  intros w0 w.
  assert (Hr : result w = Settled (Rejected "time up!")).
  { unfold w. rewrite run_cons. by rewrite run_result_settled. }
  assert (Ht : task w = Fired).
  { unfold w. rewrite run_cons. by rewrite run_task_not_scheduled. }
  rewrite Hr, Ht. repeat split; try done.
  - simpl. by rewrite transitions_settled.
  - rewrite <- Hr. apply step_result_settled. by rewrite Hr.
  - rewrite <- Ht. apply step_task_not_scheduled. by rewrite Ht.
  - apply step_fulfilled_unhandled.
Qed.

(** C3, as the specification states it, fails when the wrapped promise
    settles by rejecting: the timer is still scheduled after the settlement,
    and its callback runs afterwards. *)
Lemma rejection_leaves_timer_scheduled :
  let w0 : world nat := resolveOrTimeout Pending 3000 in
  task (step w0 (Settles (Rejected "boom"))) = Scheduled /\
  task (run [Settles (Rejected "boom"); TimerFires] w0) = Fired /\
  task (resolveOrTimeout (T:=nat) (Settled (Rejected "boom")) 3000) = Scheduled.
Proof. repeat split. Qed.

(** C3 (amended): when the wrapped promise is fulfilled before the timer
    fires, the timer is cancelled at that moment and stays cancelled: it is
    neither scheduled nor fired at any later point of the run. *)
Theorem timer_cancelled_on_fulfilment {T : Type}
    (val : T) (timeout : N) (later : list (event T)) :
  task (run (Settles (Fulfilled val) :: later) (resolveOrTimeout Pending timeout))
  = Cleared /\
  task (run later (resolveOrTimeout (Settled (Fulfilled val)) timeout)) = Cleared.
Proof.
  rewrite run_cons. split; by rewrite run_task_not_scheduled.
Qed.



(** * Further properties of [resolveOrTimeout] *)

(** X1: the timer is pending exactly as long as the result promise is: in every
    state a run can reach, [task] is scheduled if and only if [result] is
    pending.  A settled result never leaves a timer behind, and a pending
    result always has its timer. *)
Theorem timer_scheduled_iff_result_pending {T : Type}
    (promise : promise T) (timeout : N) (evs : list (event T)) :
  task (run evs (resolveOrTimeout promise timeout)) = Scheduled <->
  result (run evs (resolveOrTimeout promise timeout)) = Pending.
Proof. apply run_scheduled_iff_pending. Qed.

(** X2: the result promise takes its outcome from two places only: it is
    fulfilled only with the value the wrapped promise was fulfilled with, and
    it is rejected only with ["time up!"], by the timer.  A reason the
    wrapped promise rejects with never reaches the caller. *)
Theorem result_is_wrapped_value_or_time_up {T : Type}
    (promise : promise T) (timeout : N) (evs : list (event T)) :
  let w := run evs (resolveOrTimeout promise timeout) in
  match result w with
  | Pending => True
  | Settled (Fulfilled val) => wrapped w = Settled (Fulfilled val)
  | Settled (Rejected reason) => reason = "time up!" /\ task w = Fired
  end.
Proof. apply run_provenance. Qed.

(** X3: once the delay of the timer has elapsed the result promise is settled,
    whatever the wrapped promise did or did not do: the wait of the caller is
    bounded by the timeout. *)
Theorem settled_once_timer_fired {T : Type}
    (promise : promise T) (timeout : N) (evs : list (event T)) :
  TimerFires ∈ evs ->
  settled (result (run evs (resolveOrTimeout promise timeout))) = true.
Proof.
  intros Hin. apply list_elem_of_split in Hin as (evs1 & evs2 & ->).
  apply run_settled_after_timer.
Qed.

Lemma settled_once_timer_fired_witness :
  TimerFires ∈ [Settles (Rejected "boom"); TimerFires; Settles (Fulfilled 1)] /\
  settled (result (run [Settles (Rejected "boom"); TimerFires; Settles (Fulfilled 1)]
                       (resolveOrTimeout (Settled (Rejected "boom")) 3000))) = true.
Proof.
  assert (Hin : @TimerFires nat ∈
                [Settles (Rejected "boom"); TimerFires; Settles (Fulfilled 1)]).
  { right. left. }
  split; [exact Hin|].
  exact (settled_once_timer_fired (Settled (Rejected "boom")) 3000 _ Hin).
Defined.

(** * Further properties of [mapDict] *)

Lemma mapped_entries_fusion {T U W : Type}
    (f : T -> nat -> option U) (g : option U -> nat -> option W) (m : Dict T) :
  forall i,
    forallb copied m = true ->
    (forall idx k x, m !! idx = Some (k, Some x) -> f x (i + idx) <> None) ->
    mapped_entries (fun y j => g (Some y) j) (mapped_entries f m i) i
    = mapped_entries (fun x j => g (f x j) j) m i.
Proof.
  induction m as [|[k [x|]] m IH]; intros i Hall Hdef; [done| |done].
  change (copied (k, Some x) && forallb copied m = true) in Hall.
  apply andb_true_iff in Hall as [Hk Hall].
  unfold copied in Hk. cbn [fst] in Hk.
  apply andb_true_iff in Hk as [_ Hk]. apply negb_true_iff in Hk.
  assert (Hx : f x i <> None).
  { specialize (Hdef 0 k x eq_refl). by rewrite Nat.add_0_r in Hdef. }
  simpl. rewrite Hk. destruct (f x i) as [y|] eqn:Hfx; [|done].
  simpl. rewrite Hk. f_equal.
  apply IH; [done|]. intros idx k' x' Hlook.
  replace (Datatypes.S i + idx) with (i + Datatypes.S idx) by lia.
  by apply (Hdef (Datatypes.S idx) k' x').
Qed.

(** X4: two passes of [mapDict] with callbacks that use the index can be fused
    into one, provided no key is dropped on the way: every key of [m] holds a
    value, none is [__proto__], and [f] returns a value for each.  (If a key
    is dropped, the positions seen by the second pass shift.) *)
Theorem mapDict_fusion_with_index {T U W : Type}
    (m : Dict T) (f : T -> nat -> option U) (g : option U -> nat -> option W) :
  ordered (keys m) = true ->
  forallb holds_value m = true ->
  has_key "__proto__" m = false ->
  (forall idx k x, m !! idx = Some (k, Some x) -> f x idx <> None) ->
  mapDict (mapDict m f) (fun y idx => g (Some y) idx)
  = mapDict m (fun x idx => g (f x idx) idx).
Proof.
  intros Hord Hall Hproto Hdef.
  rewrite (mapDict_mapped_entries f m Hord).
  rewrite (mapDict_mapped_entries (fun x idx => g (f x idx) idx) m Hord).
  rewrite mapDict_mapped_entries by (by apply ordered_mapped_entries).
  apply mapped_entries_fusion; [by apply forallb_copied | done].
Qed.

Lemma mapDict_fusion_with_index_witness :
  let m : Dict nat := [("a", Some 1); ("b", Some 2)] in
  let f := fun (x idx : nat) => Some (x + idx) in
  let g := fun (y : option nat) (idx : nat) =>
             match y with Some n => Some (n * idx) | None => None end in
  mapDict (mapDict m f) (fun y idx => g (Some y) idx) = [("a", Some 0); ("b", Some 3)] /\
  mapDict m (fun x idx => g (f x idx) idx) = [("a", Some 0); ("b", Some 3)].
Proof.
  split; [|reflexivity].
  rewrite (mapDict_fusion_with_index [("a", Some 1); ("b", Some 2)]
             (fun x idx => Some (x + idx))
             (fun y idx => match y with Some n => Some (n * idx) | None => None end)).
  - reflexivity.
  - reflexivity.
  - reflexivity.
  - reflexivity.
  - intros idx k x _. discriminate.
Defined.

(** The positions do shift when a key is dropped: with [{a: undefined, b: 1}]
    the second pass sees [b] at position 0, the fused pass at position 1. *)
Example mapDict_positions_shift :
  (let m : Dict nat := [("a", None); ("b", Some 1)] in
   mapDict (mapDict m (fun x _ => Some x)) (fun _ idx => Some idx) = [("b", Some 0)] /\
   mapDict m (fun _ idx => Some idx) = [("b", Some 1)]) /\
  (let m : Dict nat := [("__proto__", Some 1); ("a", Some 2)] in
   mapDict (mapDict m (fun x _ => Some x)) (fun _ idx => Some idx) = [("a", Some 0)] /\
   mapDict m (fun _ idx => Some idx) = [("a", Some 1)]).
Proof. repeat split. Qed.

Lemma forallb_holds_value_filter {T : Type} (m : Dict T) :
  forallb holds_value (List.filter copied m) = true.
Proof.
  induction m as [|e m IH]; simpl; [done|].
  destruct (copied e) eqn:He; simpl; [|done].
  unfold copied in He. apply andb_true_iff in He as [He _]. by rewrite He.
Qed.

Lemma filter_copied_idempotent {T : Type} (m : Dict T) :
  List.filter copied (List.filter copied m) = List.filter copied m.
Proof.
  induction m as [|e m IH]; simpl; [done|].
  destruct (copied e) eqn:He; simpl; [|done]. by rewrite He, IH.
Qed.



(** * Further properties of [arrayToDict] *)

Section TableSizes.
Context {V : Type}.
Implicit Types (o : obj V) (k : string) (v : V).

Lemma create_non_index k v o :
  array_index k = None -> create k v o = o ++ [(k, v)].
Proof.
  intros Hk. induction o as [|[k' v'] o IH]; simpl; [done|].
  unfold precedes. rewrite Hk. by rewrite IH.
Qed.

Lemma length_create k v o : length (create k v o) = Datatypes.S (length o).
Proof.
  induction o as [|[k' v'] o IH]; simpl; [done|].
  destruct (precedes k k'); simpl; [done|]. by rewrite IH.
Qed.

Lemma length_update k v o : length (update k v o) = length o.
Proof.
  induction o as [|[k' v'] o IH]; simpl; [done|].
  destruct (String.eqb k k'); simpl; [done|]. by rewrite IH.
Qed.
End TableSizes.

Section ArrayToDictMore.
Context {T : Type} `{HasId T}.
Implicit Types (array : list T) (out : obj T) (k : string).

Lemma last_with_id_Some k array v :
  last_with_id k array = Some v -> id_of v = k /\ v ∈ array.
Proof.
  unfold last_with_id. intros Hlast.
  apply last_Some in Hlast as [l' Hl'].
  assert (Hin : In v (List.filter (fun val => String.eqb k (id_of val)) array)).
  { rewrite Hl'. apply in_app_iff. right. by left. }
  apply filter_In in Hin as [Hin Heq]. apply String.eqb_eq in Heq.
  split; [done|]. by apply list_elem_of_In.
Qed.

Lemma last_with_id_None k array :
  k ∉ id_of <$> array -> last_with_id k array = None.
Proof.
  induction array as [|val array IH]; [done|]. intros Hnin.
  rewrite fmap_cons in Hnin. apply not_elem_of_cons in Hnin as [Hne Hnin].
  rewrite last_with_id_cons, (IH Hnin).
  apply String.eqb_neq in Hne. by rewrite Hne.
Qed.

Lemma last_with_id_NoDup array val :
  NoDup (id_of <$> array) -> val ∈ array ->
  last_with_id (id_of val) array = Some val.
Proof.
  induction array as [|a array IH]; intros Hnd Hin.
  - by apply not_elem_of_nil in Hin.
  - rewrite fmap_cons in Hnd. apply NoDup_cons in Hnd as [Hfresh Hnd].
    rewrite last_with_id_cons.
    apply elem_of_cons in Hin as [->|Hin].
    + rewrite (last_with_id_None _ _ Hfresh). by rewrite String.eqb_refl.
    + by rewrite (IH Hnd Hin).
Qed.

Lemma arrayToDict_loop_length array : forall idx out,
  NoDup (id_of <$> array) ->
  "__proto__" ∉ id_of <$> array ->
  (forall k, k ∈ id_of <$> array -> k ∉ keys out) ->
  length (forEach (fun val _ out => set (id_of val) val out) array idx out)
  = length out + length array.
Proof.
  induction array as [|val array IH]; intros idx out Hnd Hproto Hfresh; simpl; [lia|].
  rewrite fmap_cons in Hnd, Hproto. apply NoDup_cons in Hnd as [Hval Hnd].
  apply not_elem_of_cons in Hproto as [Hne Hproto].
  assert (Hnew : id_of val ∉ keys out).
  { apply Hfresh. rewrite fmap_cons. by left. }
  rewrite IH; [| done | done |].
  - unfold set. apply has_key_false in Hnew. rewrite Hnew.
    assert (Hb : String.eqb (id_of val) "__proto__" = false).
    { apply String.eqb_neq. by intros Heq. }
    rewrite Hb, length_create. lia.
  - intros k Hin. rewrite elem_of_keys_set. intros [[-> _]|Hout]; [done|].
    revert Hout. apply Hfresh. rewrite fmap_cons. by right.
Qed.

Lemma arrayToDict_loop_order array : forall idx out,
  Forall (fun val => array_index (id_of val) = None) array ->
  keys (forEach (fun val _ out => set (id_of val) val out) array idx out)
  = keys out ++ first_occurrences (keys out) (own_ids (id_of <$> array)).
Proof.
  induction array as [|val array IH]; intros idx out Hall; simpl.
  - by rewrite app_nil_r.
  - apply Forall_cons in Hall as [Hval Hall]. rewrite (IH _ _ Hall).
    unfold set, has_key.
    destruct (existsb (String.eqb (id_of val)) (keys out)) eqn:Hk.
    + rewrite keys_update.
      destruct (String.eqb (id_of val) "__proto__"); simpl; [done|].
      by rewrite Hk.
    + destruct (String.eqb (id_of val) "__proto__"); simpl; [done|].
      rewrite Hk, (create_non_index _ _ _ Hval). unfold keys.
      rewrite fmap_app. simpl. by rewrite <- app_assoc.
Qed.
End ArrayToDictMore.

(** X6: every entry of the result is filed under its own id: the value found at
    a key is an element of the array, and its id is that key. *)
Theorem arrayToDict_key_is_id {T : Type} `{HasId T}
    (array : list T) (k : string) (v : T) :
  get k (arrayToDict array) = Some v -> id_of v = k /\ v ∈ array.
Proof.
  destruct (String.eqb_spec k "__proto__") as [->|Hk].
  - by rewrite arrayToDict_get_proto.
  - rewrite (arrayToDict_get array k Hk). apply last_with_id_Some.
Qed.

Lemma arrayToDict_key_is_id_witness :
  id_of (Item "b" "third") = "b" /\
  Item "b" "third" ∈ [Item "b" "first"; Item "7" "second"; Item "b" "third"].
Proof.
  exact (arrayToDict_key_is_id
           [Item "b" "first"; Item "7" "second"; Item "b" "third"]
           "b" (Item "b" "third") eq_refl).
Defined.

(** X7: when the ids of the array are pairwise distinct and none of them is
    [__proto__], nothing is lost: the result has one key for each element,
    and looking up the id of an element gives back that element. *)
Theorem arrayToDict_distinct_ids {T : Type} `{HasId T} (array : list T) :
  NoDup (id_of <$> array) ->
  "__proto__" ∉ id_of <$> array ->
  length (arrayToDict array) = length array /\
  (forall val, val ∈ array -> get (id_of val) (arrayToDict array) = Some val).
Proof.
  intros Hnd Hproto. split.
  - unfold arrayToDict. rewrite arrayToDict_loop_length; [done|done|done|].
    intros k _. apply not_elem_of_nil.
  - intros val Hin.
    assert (Hk : id_of val <> "__proto__").
    { intros Heq. apply Hproto. rewrite <- Heq.
      apply list_elem_of_fmap. by exists val. }
    rewrite (arrayToDict_get array _ Hk).
    by apply last_with_id_NoDup.
Qed.

Lemma arrayToDict_distinct_ids_witness :
  let array := [Item "b" "second"; Item "10" "tenth"; Item "a" "first"] in
  NoDup (id_of <$> array) /\
  ("__proto__" ∉ id_of <$> array) /\
  length (arrayToDict array) = 3 /\
  (forall val, val ∈ array -> get (id_of val) (arrayToDict array) = Some val).
Proof.
  assert (Hnd : NoDup (id_of <$>
            [Item "b" "second"; Item "10" "tenth"; Item "a" "first"])).
  { apply (bool_decide_unpack _). reflexivity. }
  assert (Hproto : "__proto__" ∉ id_of <$>
            [Item "b" "second"; Item "10" "tenth"; Item "a" "first"]).
  { apply (bool_decide_unpack _). reflexivity. }
  split; [exact Hnd|]. split; [exact Hproto|].
  exact (arrayToDict_distinct_ids
           [Item "b" "second"; Item "10" "tenth"; Item "a" "first"] Hnd Hproto).
Defined.

(** An id [__proto__] is lost even among distinct ids. *)
Example arrayToDict_distinct_ids_proto :
  length (arrayToDict [Item "__proto__" "x"; Item "a" "y"]) = 1.
Proof. reflexivity. Qed.



(** With array-index ids the order is numeric, not the order of the array. *)
Example arrayToDict_index_ids_first :
  keys (arrayToDict [Item "b" "x"; Item "10" "y"; Item "9" "z"]) = ["9"; "10"; "b"].
Proof. reflexivity. Qed.

(** * The type guard [isDefined] *)

(** X9: filtering with the guard keeps exactly the defined elements, in their
    order: the result is a list of values of [T], which is what the narrowed
    type [T[]] of [list.filter(isDefined)] promises. *)
Theorem filter_isDefined_narrows {T : Type} (l : list (option T)) :
  List.filter isDefined l = Some <$> omap (fun x => x) l /\
  (forall x, In x (List.filter isDefined l) <-> In x l /\ x <> None).
Proof.
  split.
  - induction l as [|[x|] l IH]; simpl; [done| |done]. by rewrite IH.
  - intros x. rewrite filter_In. destruct x; simpl; split;
      intros [Hin Hx]; (split; [done|]); done.
Qed.

Example filtered_of_notes : filtered = [Some "a"; Some "b"; Some "c"; Some "e"].
Proof. reflexivity. Qed.

(** * [getNameParts] *)

Import NameParts.

Section SplitFacts.
Context (sep : N -> bool).
Implicit Types (s part : jsstring) (parts : list jsstring).

Lemma split_not_nil s : split sep s <> [].
Proof. destruct s as [|c s]; simpl; [done|]. by destruct (sep c), (split sep s). Qed.

(** One part more than there are separators. *)
Lemma length_split s :
  length (split sep s) = Datatypes.S (length (List.filter sep s)).
Proof.
  induction s as [|c s IH]; simpl; [done|].
  destruct (sep c); simpl; [by rewrite IH|].
  destruct (split sep s) eqn:Hs; [by apply split_not_nil in Hs|].
  by rewrite <- IH.
Qed.

Lemma filter_nil_Forall s :
  List.filter sep s = [] <-> Forall (fun c => sep c = false) s.
Proof.
  induction s as [|c s IH]; simpl; [done|].
  rewrite Forall_cons. destruct (sep c) eqn:Hc.
  - split; [done | by intros [? _]].
  - rewrite IH. split; [by intros | by intros [_ ?]].
Qed.

Lemma split_no_sep s : Forall (fun c => sep c = false) s -> split sep s = [s].
Proof.
  induction s as [|c s IH]; simpl; [done|]. intros Hall.
  apply Forall_cons in Hall as [Hc Hall]. by rewrite Hc, IH.
Qed.

Lemma split_app_sep part c s :
  Forall (fun c => sep c = false) part -> sep c = true ->
  split sep (part ++ c :: s) = part :: split sep s.
Proof.
  intros Hall Hc. induction part as [|c' part IH]; simpl.
  - by rewrite Hc.
  - apply Forall_cons in Hall as [Hc' Hall]. by rewrite Hc', IH.
Qed.

(** The first part is what stands in front of the first separator. *)
Lemma split_head s part parts :
  split sep s = part :: parts ->
  Forall (fun c => sep c = false) part /\
  ((parts = [] /\ s = part) \/
   (exists c rest, sep c = true /\ s = part ++ c :: rest /\ parts = split sep rest)).
Proof.
  revert part parts. induction s as [|c s IH]; intros part parts; simpl.
  - intros [= <- <-]. split; [done|]. by left.
  - destruct (sep c) eqn:Hc.
    + intros [= <- <-]. split; [done|]. right. by exists c, s.
    + destruct (split sep s) as [|p ps] eqn:Hs; [by apply split_not_nil in Hs|].
      intros [= <- <-]. destruct (IH p ps eq_refl) as [Hp Hcases].
      split; [by apply Forall_cons|].
      destruct Hcases as [[-> ->]|(c' & rest & Hc' & -> & ->)]; [by left|].
      right. by exists c', rest.
Qed.

(** The last part is what stands behind the last separator. *)
Lemma split_last s :
  exists part,
    last (split sep s) = Some part /\
    Forall (fun c => sep c = false) part /\
    (s = part \/ exists c rest, sep c = true /\ s = rest ++ c :: part).
Proof.
  induction s as [|c s (part & Hlast & Hpart & Hcases)]; simpl.
  - exists []. split; [done|]. split; [done|]. by left.
  - destruct (split sep s) as [|p ps] eqn:Hs; [by apply split_not_nil in Hs|].
    destruct (sep c) eqn:Hc.
    + exists part. rewrite last_cons, Hlast. split; [done|]. split; [done|].
      right. destruct Hcases as [->|(c' & rest & Hc' & ->)].
      * by exists c, [].
      * by exists c', (c :: rest).
    + destruct Hcases as [->|(c' & rest & Hc' & ->)].
      * rewrite (split_no_sep part Hpart) in Hs. injection Hs as <- <-.
        exists (c :: part). split; [done|]. split; [by apply Forall_cons|]. by left.
      * exists part. split.
        { destruct ps as [|p' ps].
          - pose proof (length_split (rest ++ c' :: part)) as Hlen.
            rewrite Hs in Hlen. simpl in Hlen.
            rewrite List.filter_app in Hlen. simpl in Hlen.
            rewrite Hc', length_app in Hlen. simpl in Hlen. lia.
          - by rewrite last_cons_cons in Hlast |- *. }
        split; [done|]. right. by exists c', (c :: rest).
Qed.
End SplitFacts.

(** X10: [getNameParts] throws exactly when the name contains no white-space
    character (the empty name included); otherwise it returns. *)
Theorem getNameParts_throws_iff_no_space (name : jsstring) :
  match getNameParts name with
  | Throw _ => Forall (fun c => white_space c = false) name
  | Return _ => Exists (fun c => white_space c = true) name
  end.
Proof.
  unfold getNameParts. rewrite length_split.
  destruct (List.filter white_space name) as [|c cs] eqn:Hf; simpl.
  - by apply filter_nil_Forall.
  - assert (Hin : In c (List.filter white_space name)) by (rewrite Hf; by left).
    apply filter_In in Hin as [Hin Hc]. apply Exists_exists.
    exists c. split; [by apply list_elem_of_In | done].
Qed.

(** X11: when [getNameParts] returns, [first] and [last] are strings without
    white space: [first] is what stands in front of the first white-space
    character of the name, and [last] is what stands behind the last one. *)
Theorem getNameParts_first_last (name : jsstring) (r : name_parts) :
  getNameParts name = Return r ->
  exists f l,
    first r = Some f /\ last_ r = Some l /\
    Forall (fun c => white_space c = false) f /\
    Forall (fun c => white_space c = false) l /\
    (exists c rest, white_space c = true /\ name = f ++ c :: rest) /\
    (exists c rest, white_space c = true /\ name = rest ++ c :: l).
Proof.
  unfold getNameParts.
  destruct (length (split white_space name) <? 2)%nat eqn:Hlen; [done|].
  apply Nat.ltb_ge in Hlen. intros [= <-]. simpl.
  destruct (split white_space name) as [|f parts] eqn:Hs;
    [by apply split_not_nil in Hs|].
  destruct (split_head white_space name f parts Hs) as [Hf Hcases].
  destruct (split_last white_space name) as (l & Hlast & Hl & Hlcases).
  exists f, l. split; [done|]. split.
  { rewrite Hs in Hlast. rewrite last_lookup in Hlast.
    by replace (length (f :: parts) - 1) with (Nat.pred (length (f :: parts))) by lia. }
  split; [done|]. split; [done|]. split.
  - destruct Hcases as [[-> _]|(c & rest & Hc & -> & _)]; [simpl in Hlen; lia|].
    by exists c, rest.
  - destruct Hlcases as [->|Hex]; [|done].
    rewrite (split_no_sep white_space l Hl) in Hs.
    injection Hs as <- <-. simpl in Hlen. lia.
Qed.

Lemma getNameParts_first_last_witness :
  exists f l,
    Some (of_string "Mike") = Some f /\ Some (of_string "North") = Some l /\
    Forall (fun c => white_space c = false) f /\
    Forall (fun c => white_space c = false) l /\
    (exists c rest, white_space c = true /\ of_string "Mike North" = f ++ c :: rest) /\
    (exists c rest, white_space c = true /\ of_string "Mike North" = rest ++ c :: l).
Proof.
  exact (getNameParts_first_last (of_string "Mike North")
           (NameParts (Some (of_string "Mike")) None (Some (of_string "North")))
           eq_refl).
Defined.

(** X12: a name of two parts is taken apart exactly, and has no middle. *)
Theorem getNameParts_two_parts (a d : jsstring) (c : N) :
  Forall (fun c => white_space c = false) a ->
  Forall (fun c => white_space c = false) d ->
  white_space c = true ->
  getNameParts (a ++ c :: d) = Return (NameParts (Some a) None (Some d)).
Proof.
  intros Ha Hd Hc. unfold getNameParts.
  rewrite (split_app_sep white_space a c d Ha Hc).
  by rewrite (split_no_sep white_space d Hd).
Qed.

Lemma getNameParts_two_parts_witness :
  getNameParts (of_string "Mike" ++ 32%N :: of_string "North")
  = Return (NameParts (Some (of_string "Mike")) None (Some (of_string "North"))).
Proof.
  apply getNameParts_two_parts.
  - repeat constructor.
  - repeat constructor.
  - reflexivity.
Defined.

(** X13: a name of three parts loses its middle part: [slice(1, length - 2)]
    stops in front of the second to last part, so [middle] is the empty
    string, whatever stands between the two white-space characters. *)
Theorem getNameParts_three_parts (a b d : jsstring) (c1 c2 : N) :
  Forall (fun c => white_space c = false) a ->
  Forall (fun c => white_space c = false) b ->
  Forall (fun c => white_space c = false) d ->
  white_space c1 = true -> white_space c2 = true ->
  getNameParts (a ++ c1 :: b ++ c2 :: d)
  = Return (NameParts (Some a) (Some []) (Some d)).
Proof.
  intros Ha Hb Hd Hc1 Hc2. unfold getNameParts.
  rewrite (split_app_sep white_space a c1 _ Ha Hc1).
  rewrite (split_app_sep white_space b c2 _ Hb Hc2).
  by rewrite (split_no_sep white_space d Hd).
Qed.

Lemma getNameParts_three_parts_witness :
  getNameParts (of_string "John" ++ 32%N :: of_string "Fitzgerald" ++ 9%N :: of_string "Kennedy")
  = Return (NameParts (Some (of_string "John")) (Some []) (Some (of_string "Kennedy"))).
Proof.
  apply getNameParts_three_parts.
  - repeat constructor.
  - repeat constructor.
  - repeat constructor.
  - reflexivity.
  - reflexivity.
Defined.

(** * [drawShapes3] *)

Import Shapes.

Section ShapesFacts.
Context {D : Type} (draw : shape D -> shape D).
Implicit Types (shapes : list loc) (h : heap (shape D)) (s l : loc).

Lemma drawShapes3_cons s shapes h :
  drawShapes3 draw (s :: shapes) h =
  let h2 := alter (fun o => Shape true (fields o)) s (alter draw s h) in
  (s :: (drawShapes3 draw shapes h2).1, (drawShapes3 draw shapes h2).2).
Proof.
  unfold drawShapes3. simpl.
  by destruct (map_st (draw_and_mark draw) shapes _).
Qed.

Lemma drawShapes3_effect shapes : forall h,
  (drawShapes3 draw shapes h).1 = shapes /\
  length (drawShapes3 draw shapes h).2 = length h /\
  (forall s, s ∈ shapes -> s < length h ->
     exists o, (drawShapes3 draw shapes h).2 !! s = Some o /\ isDrawn o = true) /\
  (forall l, l ∉ shapes -> (drawShapes3 draw shapes h).2 !! l = h !! l).
Proof.
  induction shapes as [|s shapes IH]; intros h.
  - repeat split; try done. intros s Hin. by apply not_elem_of_nil in Hin.
  - rewrite drawShapes3_cons. cbv zeta. simpl.
    set (h2 := alter (fun o => Shape true (fields o)) s (alter draw s h)).
    assert (Hlen2 : length h2 = length h) by (unfold h2; by rewrite !length_alter).
    destruct (IH h2) as (Hout & Hlen & Hdrawn & Hrest).
    split; [by rewrite Hout|]. split; [by rewrite Hlen|]. split.
    + intros l Hin Hl. destruct (decide (l ∈ shapes)) as [Hl'|Hl'].
      * apply Hdrawn; [done|]. by rewrite Hlen2.
      * apply elem_of_cons in Hin as [->|Hin]; [|done].
        rewrite (Hrest s Hl'). unfold h2. rewrite !list_lookup_alter_eq.
        destruct (lookup_lt_is_Some_2 h s Hl) as [o Ho]. rewrite Ho. simpl.
        by eexists.
    + intros l Hnin. apply not_elem_of_cons in Hnin as [Hne Hnin].
      rewrite (Hrest l Hnin). unfold h2.
      by rewrite !list_lookup_alter_ne.
Qed.

Lemma drawShapes3_once shapes : forall h s,
  NoDup shapes -> s ∈ shapes ->
  (drawShapes3 draw shapes h).2 !! s
  = (fun o => Shape true (fields (draw o))) <$> h !! s.
Proof.
  induction shapes as [|s0 shapes IH]; intros h s Hnd Hin.
  - by apply not_elem_of_nil in Hin.
  - apply NoDup_cons in Hnd as [Hfresh Hnd].
    rewrite drawShapes3_cons. cbv zeta. simpl.
    apply elem_of_cons in Hin as [->|Hin].
    + destruct (drawShapes3_effect shapes
                  (alter (fun o => Shape true (fields o)) s0 (alter draw s0 h)))
        as (_ & _ & _ & Hrest).
      rewrite (Hrest s0 Hfresh), !list_lookup_alter_eq.
      unfold heap, loc in *. destruct (h !! s0); reflexivity.
    + rewrite (IH _ s Hnd Hin).
      assert (Hne : s0 <> s) by (intros ->; done).
      by rewrite !list_lookup_alter_ne.
Qed.
End ShapesFacts.

(** X14: [drawShapes3] returns the references it was given, in the same order,
    and marks exactly the shapes of the array: each of them has [isDrawn]
    set afterwards, whatever its [draw] does to it, and every other object
    of the heap is left as it was ([draw] acts on its own shape only). *)
Theorem drawShapes3_marks_the_shapes {D : Type} (draw : shape D -> shape D)
    (shapes : list loc) (h : heap (shape D)) :
  (drawShapes3 draw shapes h).1 = shapes /\
  length (drawShapes3 draw shapes h).2 = length h /\
  (forall s, s ∈ shapes -> s < length h ->
     exists o, (drawShapes3 draw shapes h).2 !! s = Some o /\ isDrawn o = true) /\
  (forall l, l ∉ shapes -> (drawShapes3 draw shapes h).2 !! l = h !! l).
Proof. apply drawShapes3_effect. Qed.

(** X15: when no shape occurs twice in the array, each shape is drawn exactly
    once: its fields are what one call of [draw] leaves, and [isDrawn] is
    set. *)
Theorem drawShapes3_draws_once {D : Type} (draw : shape D -> shape D)
    (shapes : list loc) (h : heap (shape D)) (s : loc) :
  NoDup shapes -> s ∈ shapes ->
  (drawShapes3 draw shapes h).2 !! s
  = (fun o => Shape true (fields (draw o))) <$> h !! s.
Proof. apply drawShapes3_once. Qed.

Lemma drawShapes3_draws_once_witness :
  let draw := fun o : shape nat => Shape false (fields o + 1) in
  let h := [Shape false 10; Shape false 20; Shape true 30] in
  NoDup [2; 0] /\ 2 ∈ [2; 0] /\
  (drawShapes3 draw [2; 0] h).2 !! 2 = Some (Shape true 31).
Proof.
  assert (Hnd : NoDup [2; 0]) by (by apply (bool_decide_unpack _)).
  assert (Hin : 2 ∈ [2; 0]) by left.
  split; [exact Hnd|]. split; [exact Hin|].
  exact (drawShapes3_draws_once (fun o : shape nat => Shape false (fields o + 1))
           [2; 0] [Shape false 10; Shape false 20; Shape true 30] 2 Hnd Hin).
Defined.

(** * [logWhenResolved] *)

Import Logger.

Section LoggerFacts.
Context {T : Type}.
Implicit Types (w : log_world T) (s : settlement T).

Lemma log_run_cons s (ss : list (settlement T)) w :
  log_run (s :: ss) w = log_run ss (settles w s).
Proof. reflexivity. Qed.

Lemma log_run_settled (ss : list (settlement T)) : forall w,
  settled (awaited w) = true -> log_run ss w = w.
Proof.
  unfold log_run. induction ss as [|s ss IH]; intros w Hw; simpl; [done|].
  assert (Hs : settles w s = w).
  { unfold settles. by destruct (awaited w). }
  rewrite Hs. by apply IH.
Qed.
End LoggerFacts.

(** X16: [logWhenResolved] follows the first settlement of [p] and nothing else:
    if [p] is fulfilled, the value is logged once and the returned promise
    is fulfilled; if [p] rejects, nothing is logged and the returned promise
    rejects with the same reason; while [p] is pending nothing happens. *)
Theorem logWhenResolved_follows_p {T : Type}
    (p : promise T) (ss : list (settlement T)) :
  let w := log_run ss (logWhenResolved p) in
  awaited w = match p, ss with
              | Pending, s :: _ => Settled s
              | _, _ => p
              end /\
  match awaited w with
  | Pending => returned w = Pending /\ console w = []
  | Settled (Fulfilled val) =>
      returned w = Settled (Fulfilled tt) /\ console w = [val]
  | Settled (Rejected reason) =>
      returned w = Settled (Rejected reason) /\ console w = []
  end.
Proof.
  intros w. unfold w. clear w.
  destruct p as [|[val|reason]].
  - destruct ss as [|[val|reason] ss]; [done| |];
      rewrite log_run_cons, log_run_settled; done.
  - by rewrite log_run_settled.
  - by rewrite log_run_settled.
Qed.
